(** * C++ ABI runtime support of the MOS platform: [cxa_abi.cc]

    A shallow embedding of [mos-platform/common/lib/cxa_abi.cc]: the
    one-time-initialisation guards ([__cxa_guard_acquire],
    [__cxa_guard_release]) and the registry of exit functions
    ([RegistrationList], [__cxa_atexit], the [.fini_array] slot
    [CxaFinalizer]).

    Conventions of the embedding.
    - Machine integers are [Z]; the only arithmetic of the file is the
      increment of the [uint8_t] counter [m_sz], whose wrap-around at 256 is
      written out.
    - Memory that the program addresses byte-wise (the guard object) is a
      list of bytes, lowest address first.
    - A C array is a list accessed with [!!] and [<[_:=_]>]; an access
      outside the array is undefined behaviour in C++, which the embedding
      reports as [None].
    - Heap nodes live in an arena that only grows (the program never frees a
      node); the address of a node is its position in the arena.
    - Calling an exit function is an observable event; a traversal returns
      the list of events in the order the calls are made.  Exit functions are
      assumed to return and not to re-enter the registry. *)

From Stdlib Require Import ZArith Lia.
From Stdlib.Strings Require Import Byte.
From stdpp Require Import base option list.

Open Scope Z_scope.

(** ** Guard objects *)

Module Guard.

(** The 64-bit guard object as it lies in memory: 8 bytes, the byte with the
    lowest address first. *)
Definition guard_object := list byte.

(** [reinterpret_cast<uint8_t *>(guard_object)] designates offset 0. *)
Definition first_byte : nat := 0%nat.

(** Returns 1 when the byte [reinterpret_cast<uint8_t *>(guard_object)]
    points at is 0, else 0.
    The read fails only when the pointer designates no storage. *)
Definition __cxa_guard_acquire (g : guard_object) : option Z :=
  b ← g !! first_byte;
  Some (if Byte.eqb b x00 then 1 else 0).

(** Stores 1 through [reinterpret_cast<uint8_t *>(guard_object)]. *)
Definition __cxa_guard_release (g : guard_object) : option guard_object :=
  _ ← g !! first_byte;
  Some (<[first_byte := x01]> g).

(** The two operations compiler-generated code performs on a guard. *)
Inductive guard_op := Acquire | Release.

(** The guard object after one operation ([__cxa_guard_acquire] stores
    nothing). *)
Definition guard_step (g : guard_object) (op : guard_op) : option guard_object :=
  match op with
  | Acquire => _ ← __cxa_guard_acquire g; Some g
  | Release => __cxa_guard_release g
  end.

Fixpoint guard_steps (g : guard_object) (ops : list guard_op) : option guard_object :=
  match ops with
  | [] => Some g
  | op :: ops' => g' ← guard_step g op; guard_steps g' ops'
  end.

End Guard.

(** ** Exit function storage *)

(** [struct ExitFunctionStorage]: a function pointer and its argument, both
    opaque machine addresses. *)
Record ExitFunctionStorage := mkExit {
  m_functionptr : Z;
  m_userdata : Z
}.

(** The event of calling function [f] with argument [p]. *)
Inductive Event := Invoke (f : Z) (p : Z).

(** [void operator()() const { m_functionptr(m_userdata); }] *)
Definition ExitFunctionStorage_call (e : ExitFunctionStorage) : Event :=
  Invoke (m_functionptr e) (m_userdata e).

(** ** Blocks of registrations *)

(** [static constexpr std::uint8_t BLOCK_SZ = 32;] *)
Definition BLOCK_SZ : Z := 32.

(** [struct FnBlock]: the array [m_funcs[BLOCK_SZ]] and the [uint8_t]
    counter [m_sz]. *)
Record FnBlock := mkBlock {
  m_funcs : list ExitFunctionStorage;
  m_sz : Z
}.

(** What the C++ types guarantee of any [FnBlock] object, whatever its
    contents: the array has [BLOCK_SZ] elements and [m_sz] is a [uint8_t]. *)
Definition block_typed (b : FnBlock) : Prop :=
  length (m_funcs b) = Z.to_nat BLOCK_SZ ∧ 0 ≤ m_sz b < 256.

(** [bool full() const { return m_sz == BLOCK_SZ; }] *)
Definition full (b : FnBlock) : bool := m_sz b =? BLOCK_SZ.

(** [void push_front(const ExitFunctionStorage &newfn) { m_funcs[m_sz++] = newfn; }]
    The store is defined only inside the array. *)
Definition FnBlock_push_front (newfn : ExitFunctionStorage) (b : FnBlock)
  : option FnBlock :=
  _ ← m_funcs b !! Z.to_nat (m_sz b);
  Some {| m_funcs := <[Z.to_nat (m_sz b) := newfn]> (m_funcs b);
          m_sz := (m_sz b + 1) mod 256 |}.

(** The loop [for (std::uint8_t i = m_sz; i > 0; --i) m_funcs[i-1]();]
    entered with counter [i]. *)
Fixpoint run_from (funcs : list ExitFunctionStorage) (i : nat)
  : option (list Event) :=
  match i with
  | O => Some []
  | S j =>
      fn ← funcs !! j;
      rest ← run_from funcs j;
      Some (ExitFunctionStorage_call fn :: rest)
  end.

(** [void run_all()] *)
Definition FnBlock_run_all (b : FnBlock) : option (list Event) :=
  run_from (m_funcs b) (Z.to_nat (m_sz b)).

(** ** The list of blocks *)

(** A [FnBlock *] of the program: [&m_tail] or the address of a heap node. *)
Inductive BlockPtr :=
  | TailPtr
  | NodePtr (a : nat).

(** [struct FnNode : public FnBlock] with its link [m_next]. *)
Record FnNode := mkNode {
  node_block : FnBlock;
  m_next : BlockPtr
}.

(** The static members [m_tail] and [m_list] of [RegistrationList], and the
    arena of the nodes created so far. *)
Record RegistrationList := mkList {
  m_tail : FnBlock;
  m_heap : list FnNode;
  m_list : BlockPtr
}.

(** [*ptr] *)
Definition deref (r : RegistrationList) (ptr : BlockPtr) : option FnBlock :=
  match ptr with
  | TailPtr => Some (m_tail r)
  | NodePtr a => node_block <$> m_heap r !! a
  end.

(** The registry after block [b] is stored through [ptr]. *)
Definition store_block (r : RegistrationList) (ptr : BlockPtr) (b : FnBlock)
  : RegistrationList :=
  match ptr with
  | TailPtr => {| m_tail := b; m_heap := m_heap r; m_list := m_list r |}
  | NodePtr a =>
      {| m_tail := m_tail r;
         m_heap := alter (fun n => {| node_block := b; m_next := m_next n |}) a (m_heap r);
         m_list := m_list r |}
  end.

(** The outcome of [new (std::nothrow) FnNode{...}]'s allocation: a null
    pointer, or storage for a node.  [FnNode]'s constructor initialises
    [m_next] only and [FnBlock] has no member initialisers, so [m_funcs] and
    [m_sz] of the new node hold whatever the storage held: [raw]. *)
Inductive alloc_result :=
  | AllocFail
  | AllocOk (raw : FnBlock).

(** [static bool push_front(const ExitFunctionStorage & new_exit)].
    The allocator is asked only when the current block is full. *)
Definition push_front (new_exit : ExitFunctionStorage) (alloc : alloc_result)
    (r : RegistrationList) : option (bool * RegistrationList) :=
  current_block ← deref r (m_list r);
  if negb (full current_block) then
    b' ← FnBlock_push_front new_exit current_block;
    Some (true, store_block r (m_list r) b')
  else
    match alloc with
    | AllocFail => Some (false, r)
    | AllocOk raw =>
        b' ← FnBlock_push_front new_exit raw;
        Some (true,
              {| m_tail := m_tail r;
                 m_heap := m_heap r ++ [{| node_block := b'; m_next := m_list r |}];
                 m_list := NodePtr (length (m_heap r)) |})
    end.

(** The loop of [run_all_exits], bounded by [fuel] iterations, followed by
    [m_tail.run_all()]. *)
Fixpoint run_all_exits_loop (fuel : nat) (r : RegistrationList)
  : option (list Event * RegistrationList) :=
  match m_list r with
  | TailPtr =>
      t ← FnBlock_run_all (m_tail r);
      Some (t, r)
  | NodePtr a =>
      match fuel with
      | O => None
      | S fuel' =>
          node ← m_heap r !! a;
          t ← FnBlock_run_all (node_block node);
          '(t', r') ← run_all_exits_loop fuel'
                        {| m_tail := m_tail r; m_heap := m_heap r;
                           m_list := m_next node |};
          Some (t ++ t', r')
      end
  end.

(** [static void run_all_exits()].  Every iteration of the loop leaves a
    node for good unless the links form a cycle, so a run that ends visits at
    most [length (m_heap r)] nodes; [None] stands for a run that is undefined
    or does not end. *)
Definition run_all_exits (r : RegistrationList)
  : option (list Event * RegistrationList) :=
  run_all_exits_loop (length (m_heap r)) r.

(** The registry at program start:
    [RegistrationList::m_tail{}] and [m_list = &m_tail]. *)
Definition null_exit : ExitFunctionStorage := {| m_functionptr := 0; m_userdata := 0 |}.

Definition initial_list : RegistrationList :=
  {| m_tail := {| m_funcs := replicate (Z.to_nat BLOCK_SZ) null_exit; m_sz := 0 |};
     m_heap := [];
     m_list := TailPtr |}.

(** ** The finalizer slot and [__cxa_atexit] *)

(** The values [CxaFinalizer] takes. *)
Inductive FinalizerPtr :=
  | NoOpFinalize
  | __finalize_noargs.

(** The state of the translation unit. *)
Record Runtime := mkRuntime {
  CxaFinalizer : FinalizerPtr;
  registry : RegistrationList
}.

(** [static ... FinalizerPtr CxaFinalizer = NoOpFinalize;] *)
Definition initial : Runtime :=
  {| CxaFinalizer := NoOpFinalize; registry := initial_list |}.

(** Calling through a [FinalizerPtr]. *)
Definition call_finalizer (fp : FinalizerPtr) (r : RegistrationList)
  : option (list Event * RegistrationList) :=
  match fp with
  | NoOpFinalize => Some ([], r)
  | __finalize_noargs => run_all_exits r
  end.

(** [_fini] invoking the [.fini_array] entry once. *)
Definition fire_hook (st : Runtime) : option (list Event * Runtime) :=
  '(t, r') ← call_finalizer (CxaFinalizer st) (registry st);
  Some (t, {| CxaFinalizer := CxaFinalizer st; registry := r' |}).

(** [extern "C" int __cxa_atexit(f, p, dso_handle)]: the slot is written
    first, then the entry [{f, p}] is pushed and the result translated. *)
Definition __cxa_atexit (f p dso_handle : Z) (alloc : alloc_result) (st : Runtime)
  : option (Z * Runtime) :=
  let armed := __finalize_noargs in
  '(ok, r') ← push_front {| m_functionptr := f; m_userdata := p |} alloc (registry st);
  Some (if ok : bool then 0 else -1, {| CxaFinalizer := armed; registry := r' |}).

(** One call of a client: the arguments of [__cxa_atexit] and what the
    allocator answers if it is asked during the call. *)
Record Call := mkCall {
  call_f : Z;
  call_p : Z;
  call_dso : Z;
  call_alloc : alloc_result
}.

(** A sequence of calls of [__cxa_atexit]; returns the results in order. *)
Fixpoint atexit_calls (cs : list Call) (st : Runtime) : option (list Z * Runtime) :=
  match cs with
  | [] => Some ([], st)
  | c :: cs' =>
      '(res, st1) ← __cxa_atexit (call_f c) (call_p c) (call_dso c) (call_alloc c) st;
      '(ress, st2) ← atexit_calls cs' st1;
      Some (res :: ress, st2)
  end.

(** ** Vocabulary of the specification *)

(** The entry a call registers. *)
Definition entry_of (c : Call) : ExitFunctionStorage :=
  {| m_functionptr := call_f c; m_userdata := call_p c |}.

(** The entries of the calls that returned 0, in the order of the calls. *)
Fixpoint accepted (cs : list Call) (res : list Z) : list ExitFunctionStorage :=
  match cs, res with
  | c :: cs', x :: res' =>
      if x =? 0 then entry_of c :: accepted cs' res' else accepted cs' res'
  | _, _ => []
  end.

(** The calls that returned 0, in the order they were made. *)
Fixpoint accepted_calls (cs : list Call) (res : list Z) : list Call :=
  match cs, res with
  | c :: cs', x :: res' =>
      if x =? 0 then c :: accepted_calls cs' res' else accepted_calls cs' res'
  | _, _ => []
  end.

(** The events of running [es] from the last registered to the first. *)
Definition lifo (es : list ExitFunctionStorage) : list Event :=
  ExitFunctionStorage_call <$> reverse es.

(** A block whose counter is within the array. *)
Definition block_ok (b : FnBlock) : Prop :=
  length (m_funcs b) = Z.to_nat BLOCK_SZ ∧ 0 ≤ m_sz b ≤ BLOCK_SZ.

(** The entries a block holds, oldest first. *)
Definition block_entries (b : FnBlock) : list ExitFunctionStorage :=
  take (Z.to_nat (m_sz b)) (m_funcs b).

(** A link that leads to the tail or to a node older than the node at [a]. *)
Definition ptr_below (p : BlockPtr) (a : nat) : Prop :=
  match p with
  | TailPtr => True
  | NodePtr a' => (a' < a)%nat
  end.

(** [chain tl h p log]: following the links from [p] through the arena [h]
    reaches the tail [tl] through blocks that are all [block_ok], and [log]
    is what these blocks hold, oldest entry first. *)
Inductive chain (tl : FnBlock) (h : list FnNode)
  : BlockPtr → list ExitFunctionStorage → Prop :=
  | chain_tail :
      block_ok tl →
      chain tl h TailPtr (block_entries tl)
  | chain_node a b next older :
      h !! a = Some {| node_block := b; m_next := next |} →
      block_ok b →
      ptr_below next a →
      chain tl h next older →
      chain tl h (NodePtr a) (older ++ block_entries b).

(** The registry holds exactly [log]. *)
Definition holds (r : RegistrationList) (log : list ExitFunctionStorage) : Prop :=
  chain (m_tail r) (m_heap r) (m_list r) log.

(** An allocator answer whose storage, when there is some, has a zero
    counter (as zero-filled memory has). *)
Definition alloc_zeroed (alloc : alloc_result) : Prop :=
  match alloc with
  | AllocFail => True
  | AllocOk raw => length (m_funcs raw) = Z.to_nat BLOCK_SZ ∧ m_sz raw = 0
  end.

(** Concrete inputs used by the examples. *)

(** [n] calls registering the markers [k+1 .. k+n] while the allocator
    answers [alloc]. *)
Fixpoint marker_calls (alloc : alloc_result) (k : Z) (n : nat) : list Call :=
  match n with
  | O => []
  | S n' =>
      {| call_f := k + 1; call_p := k + 1; call_dso := 0; call_alloc := alloc |}
      :: marker_calls alloc (k + 1) n'
  end.

(** Storage that is not zero-filled: every array slot holds the words
    [57005] and [48879], and the counter byte holds [sz]. *)
Definition stale_storage (sz : Z) : FnBlock :=
  {| m_funcs := replicate (Z.to_nat BLOCK_SZ) {| m_functionptr := 57005; m_userdata := 48879 |};
     m_sz := sz |}.

(** 33 registrations of the markers 1 .. 33; the allocator is asked once, by
    the 33rd call, and answers with storage whose counter byte holds [sz]. *)
Definition calls_with_stale_node (sz : Z) : list Call :=
  marker_calls AllocFail 0 32
  ++ [{| call_f := 33; call_p := 33; call_dso := 0;
         call_alloc := AllocOk (stale_storage sz) |}].

(** A registry whose tail block is full of the entry [{7, 9}]. *)
Definition full_tail_list : RegistrationList :=
  {| m_tail := {| m_funcs := replicate (Z.to_nat BLOCK_SZ) {| m_functionptr := 7; m_userdata := 9 |};
                  m_sz := BLOCK_SZ |};
     m_heap := [];
     m_list := TailPtr |}.

(** Every block of the registry, linked or not, has its counter within
    the array. *)
Definition all_blocks_ok (r : RegistrationList) : Prop :=
  block_ok (m_tail r) ∧ Forall (λ n, block_ok (node_block n)) (m_heap r).

(** [packed r n]: the registry stores [n] entries without gaps.  Every
    block but the head is full, the head is the newest node (or the tail
    block when there is no node), and a head node is never empty. *)
Definition packed (r : RegistrationList) (n : nat) : Prop :=
  ∃ b, deref r (m_list r) = Some b
       ∧ 0 ≤ m_sz b ≤ BLOCK_SZ
       ∧ Z.of_nat n = BLOCK_SZ * Z.of_nat (length (m_heap r)) + m_sz b
       ∧ match m_list r with
         | TailPtr => m_heap r = []
         | NodePtr a => length (m_heap r) = S a ∧ 1 ≤ m_sz b
         end.

(** A block one entry short of full: 31 entries [{7, 9}] and one free
    slot holding null words. *)
Definition nearly_full_block : FnBlock :=
  {| m_funcs := replicate 31 {| m_functionptr := 7; m_userdata := 9 |} ++ [null_exit];
     m_sz := 31 |}.

(** A registry of 33 entries: the full tail block of [full_tail_list] and
    one node holding the entry [{8, 10}]. *)
Definition two_block_list : RegistrationList :=
  {| m_tail := m_tail full_tail_list;
     m_heap := [{| node_block :=
                     {| m_funcs := <[0%nat := {| m_functionptr := 8; m_userdata := 10 |}]>
                                     (replicate (Z.to_nat BLOCK_SZ) null_exit);
                        m_sz := 1 |};
                   m_next := TailPtr |}];
     m_list := NodePtr 0 |}.

(** * Properties *)

(** ** Guards *)

Module GuardSpec.
Import Guard.

Lemma acquire_value (g : guard_object) (b : byte) :
  g !! first_byte = Some b →
  __cxa_guard_acquire g = Some (if Byte.eqb b x00 then 1 else 0).
Proof. intros Hb. unfold __cxa_guard_acquire. rewrite Hb. reflexivity. Qed.

Lemma first_byte_present (g : guard_object) :
  length g = 8%nat → ∃ b, g !! first_byte = Some b.
Proof.
  intros Hlen. destruct g as [|b g]; [discriminate|]. exists b. reflexivity.
Qed.

Lemma release_value (g : guard_object) :
  length g = 8%nat →
  ∃ b rest, g = b :: rest ∧ __cxa_guard_release g = Some (x01 :: rest).
Proof.
  intros Hlen. destruct g as [|b g]; [discriminate|].
  exists b, g. split; reflexivity.
Qed.

(** Once the first byte is non-zero no operation makes it zero again. *)
Lemma steps_stay_initialized (ops : list guard_op) (g : guard_object) (b : byte) :
  g !! first_byte = Some b → b ≠ x00 →
  ∃ g' b', guard_steps g ops = Some g' ∧ g' !! first_byte = Some b' ∧ b' ≠ x00
           ∧ length g' = length g.
Proof.
  revert g b. induction ops as [|op ops IH]; intros g b Hb Hnz.
  - exists g, b. auto.
  - destruct op; simpl.
    + unfold __cxa_guard_acquire. rewrite Hb. simpl. eauto.
    + destruct g as [|b0 rest]; [discriminate|].
      unfold __cxa_guard_release. simpl.
      destruct (IH (x01 :: rest) x01) as (g' & b' & Hs & Hb' & Hnz' & Hlen);
        [reflexivity | discriminate |].
      exists g', b'. repeat split; assumption.
Qed.

(** C5. Guard one-shot semantics.  On an 8-byte guard object,
    [__cxa_guard_acquire] answers 1 exactly when the byte at the lowest
    address is zero and 0 otherwise; [__cxa_guard_release], with or without
    an earlier acquire, leaves an object on which the next acquire, and the
    acquire after any further sequence of guard operations, answers 0. *)
Theorem guard_one_shot (g : guard_object) :
  length g = 8%nat →
  (__cxa_guard_acquire g = Some 1 ↔ g !! first_byte = Some x00)
  ∧ (__cxa_guard_acquire g = Some 0 ↔ g !! first_byte ≠ Some x00)
  ∧ ∃ g1, __cxa_guard_release g = Some g1
          ∧ __cxa_guard_acquire g1 = Some 0
          ∧ ∀ ops, ∃ g2, guard_steps g1 ops = Some g2
                         ∧ __cxa_guard_acquire g2 = Some 0.
Proof.
  intros Hlen.
  destruct (first_byte_present g Hlen) as [b Hb].
  rewrite (acquire_value g b Hb), Hb.
  split; [|split].
  - destruct (Byte.eqb b x00) eqn:E.
    + apply byte_dec_bl in E. subst. tauto.
    + apply eqb_false in E. split; [discriminate | congruence].
  - destruct (Byte.eqb b x00) eqn:E.
    + apply byte_dec_bl in E. subst. split; [discriminate | congruence].
    + apply eqb_false in E. split; [congruence | reflexivity].
  - destruct (release_value g Hlen) as (b0 & rest & -> & Hrel).
    exists (x01 :: rest). split; [exact Hrel|]. split; [reflexivity|].
    intros ops.
    destruct (steps_stay_initialized ops (x01 :: rest) x01)
      as (g2 & b2 & Hs & Hb2 & Hnz & _); [reflexivity | discriminate |].
    exists g2. split; [exact Hs|].
    rewrite (acquire_value g2 b2 Hb2).
    destruct (Byte.eqb b2 x00) eqn:E; [|reflexivity].
    apply byte_dec_bl in E. contradiction.
Qed.

Lemma guard_one_shot_witness :
  length [x00; x2a; x00; xff; x00; x00; x10; x00] = 8%nat
  ∧ __cxa_guard_acquire [x00; x2a; x00; xff; x00; x00; x10; x00] = Some 1.
Proof.
  split; [reflexivity|].
  apply (guard_one_shot [x00; x2a; x00; xff; x00; x00; x10; x00]); reflexivity.
Defined.

(** C6. Guard frame property.  On an 8-byte guard object the answer of
    [__cxa_guard_acquire] depends on the lowest-addressed byte only and the
    call stores nothing; [__cxa_guard_release] stores 1 in that byte and
    leaves the other seven bytes, and the size, as they were. *)
Theorem guard_frame (g : guard_object) :
  length g = 8%nat →
  (∀ g' : guard_object,
      g' !! first_byte = g !! first_byte →
      __cxa_guard_acquire g' = __cxa_guard_acquire g)
  ∧ guard_step g Acquire = Some g
  ∧ ∃ g1 : guard_object,
      __cxa_guard_release g = Some g1
      ∧ length g1 = 8%nat
      ∧ g1 !! first_byte = Some x01
      ∧ ∀ i, (1 ≤ i)%nat → g1 !! i = g !! i.
Proof.
  intros Hlen. split; [|split].
  - intros g' Hsame. unfold __cxa_guard_acquire. rewrite Hsame. reflexivity.
  - destruct (first_byte_present g Hlen) as [b Hb].
    simpl. rewrite (acquire_value g b Hb). reflexivity.
  - destruct (release_value g Hlen) as (b0 & rest & -> & Hrel).
    exists (x01 :: rest). repeat split; try assumption.
    intros i Hi. destruct i as [|i]; [lia | reflexivity].
Qed.

Lemma guard_frame_witness :
  length [x00; x2a; x00; xff; x00; x00; x10; x00] = 8%nat
  ∧ __cxa_guard_release [x00; x2a; x00; xff; x00; x00; x10; x00]
    = Some [x01; x2a; x00; xff; x00; x00; x10; x00].
Proof.
  split; [reflexivity|].
  destruct (guard_frame [x00; x2a; x00; xff; x00; x00; x10; x00] eq_refl)
    as (_ & _ & g1 & Hrel & _ & Hfirst & Hrest).
  rewrite Hrel. f_equal.
  apply list_eq. intros [|i]; [exact Hfirst | apply Hrest; lia].
Defined.

End GuardSpec.

(** ** Blocks *)

Section Blocks.
Implicit Types (b : FnBlock) (e newfn : ExitFunctionStorage).

Lemma lifo_app (es1 es2 : list ExitFunctionStorage) :
  lifo (es1 ++ es2) = lifo es2 ++ lifo es1.
Proof. unfold lifo. rewrite reverse_app, fmap_app. reflexivity. Qed.

Lemma run_from_take (funcs : list ExitFunctionStorage) (n : nat) :
  (n ≤ length funcs)%nat →
  run_from funcs n = Some (lifo (take n funcs)).
Proof.
  induction n as [|n IH]; intros Hn.
  - rewrite take_0. reflexivity.
  - destruct (lookup_lt_is_Some_2 funcs n) as [fn Hfn]; [lia|].
    simpl. rewrite Hfn. simpl. rewrite IH by lia. simpl.
    rewrite (take_S_r _ _ _ Hfn). unfold lifo.
    rewrite reverse_snoc. reflexivity.
Qed.

Lemma run_all_ok b :
  block_ok b → FnBlock_run_all b = Some (lifo (block_entries b)).
Proof.
  intros [Hlen Hsz]. unfold FnBlock_run_all, block_entries.
  apply run_from_take. unfold BLOCK_SZ in *. lia.
Qed.

Lemma block_entries_length b :
  block_ok b → length (block_entries b) = Z.to_nat (m_sz b).
Proof.
  intros [Hlen Hsz]. unfold block_entries.
  rewrite length_take_le; [reflexivity|]. unfold BLOCK_SZ in *. lia.
Qed.

Lemma full_spec b : full b = true ↔ m_sz b = BLOCK_SZ.
Proof. unfold full. apply Z.eqb_eq. Qed.

(** A push into a block with room is a store inside the array. *)
Lemma FnBlock_push_front_room newfn b :
  block_ok b → m_sz b ≠ BLOCK_SZ →
  ∃ b', FnBlock_push_front newfn b = Some b'
        ∧ block_ok b'
        ∧ m_sz b' = m_sz b + 1
        ∧ block_entries b' = block_entries b ++ [newfn].
Proof.
  intros [Hlen Hsz] Hroom. unfold BLOCK_SZ in *.
  assert (Hidx : (Z.to_nat (m_sz b) < length (m_funcs b))%nat) by lia.
  destruct (lookup_lt_is_Some_2 _ _ Hidx) as [old Hold].
  unfold FnBlock_push_front. rewrite Hold. simpl.
  eexists. split; [reflexivity|].
  assert (Hwrap : (m_sz b + 1) mod 256 = m_sz b + 1)
    by (apply Z.mod_small; lia).
  split; [|split].
  - split; simpl; [rewrite length_insert; exact Hlen |].
    rewrite Hwrap. unfold BLOCK_SZ. lia.
  - simpl. exact Hwrap.
  - unfold block_entries. simpl. rewrite Hwrap.
    replace (Z.to_nat (m_sz b + 1)) with (S (Z.to_nat (m_sz b))) by lia.
    rewrite (take_S_r _ _ newfn) by (apply list_lookup_insert_eq; exact Hidx).
    rewrite take_insert_ge by lia. reflexivity.
Qed.

(** A push is defined exactly when the counter is inside the array. *)
Lemma FnBlock_push_front_defined newfn b :
  is_Some (FnBlock_push_front newfn b)
  ↔ (Z.to_nat (m_sz b) < length (m_funcs b))%nat.
Proof.
  unfold FnBlock_push_front. rewrite <- lookup_lt_is_Some.
  destruct (m_funcs b !! Z.to_nat (m_sz b)); simpl; split; intros [x Hx];
    try discriminate; eauto.
Qed.

End Blocks.

(** ** Chains *)

Section Chains.
Variables (tl : FnBlock).

Lemma chain_ptr_valid (h : list FnNode) (p : BlockPtr) log :
  chain tl h p log → ptr_below p (length h).
Proof.
  intros Hc. destruct Hc as [|a b next older Hlook _ _ _]; simpl; [exact I|].
  eapply lookup_lt_Some. exact Hlook.
Qed.

Lemma ptr_below_mono (p : BlockPtr) (a a' : nat) :
  ptr_below p a → (a ≤ a')%nat → ptr_below p a'.
Proof. destruct p; simpl; [auto | lia]. Qed.

(** A chain only depends on the nodes below its starting point. *)
Lemma chain_frame (h h' : list FnNode) (p : BlockPtr) log :
  chain tl h p log →
  ∀ bound, ptr_below p bound →
           (∀ a, (a < bound)%nat → h' !! a = h !! a) →
           chain tl h' p log.
Proof.
  induction 1 as [Hok|a b next older Hlook Hok Hbelow Hc IH];
    intros bound Hp Hsame.
  - constructor. exact Hok.
  - simpl in Hp. econstructor; eauto.
    + rewrite Hsame by exact Hp. exact Hlook.
    + apply (IH bound); [|exact Hsame].
      eapply ptr_below_mono; [exact Hbelow | lia].
Qed.

Lemma chain_block_ok (h : list FnNode) (p : BlockPtr) log :
  chain tl h p log →
  ∃ b, deref {| m_tail := tl; m_heap := h; m_list := p |} p = Some b ∧ block_ok b.
Proof.
  intros Hc. destruct Hc as [Hok|a b next older Hlook Hok _ _]; simpl.
  - eauto.
  - rewrite Hlook. simpl. eauto.
Qed.

(** The traversal of a chain ends and runs its log backwards. *)
Lemma loop_chain (h : list FnNode) (p : BlockPtr) log :
  chain tl h p log →
  ∀ fuel, ptr_below p fuel →
          run_all_exits_loop fuel {| m_tail := tl; m_heap := h; m_list := p |}
          = Some (lifo log, {| m_tail := tl; m_heap := h; m_list := TailPtr |}).
Proof.
  induction 1 as [Hok|a b next older Hlook Hok Hbelow Hc IH]; intros fuel Hfuel.
  - destruct fuel; simpl; rewrite (run_all_ok _ Hok); reflexivity.
  - simpl in Hfuel. destruct fuel as [|fuel]; [lia|].
    simpl. rewrite Hlook. simpl. rewrite (run_all_ok _ Hok). simpl.
    rewrite IH by (eapply ptr_below_mono; [exact Hbelow | lia]).
    simpl. rewrite lifo_app. reflexivity.
Qed.

End Chains.

(** More fuel does not change a traversal that ends. *)
Lemma run_all_exits_loop_mono (fuel : nat) :
  ∀ (r : RegistrationList) x,
    run_all_exits_loop fuel r = Some x →
    ∀ fuel', (fuel ≤ fuel')%nat → run_all_exits_loop fuel' r = Some x.
Proof.
  induction fuel as [|fuel IH]; intros r x Hrun fuel' Hle.
  - destruct fuel'; simpl in *; destruct (m_list r); try exact Hrun; discriminate.
  - destruct fuel' as [|fuel']; [lia|]. simpl in *.
    destruct (m_list r) as [|a]; [exact Hrun|].
    destruct (m_heap r !! a) as [node|]; simpl in *; [|discriminate].
    destruct (FnBlock_run_all (node_block node)) as [t|]; simpl in *; [|discriminate].
    destruct (run_all_exits_loop fuel _) as [y|] eqn:Hrest; [|discriminate].
    rewrite (IH _ _ Hrest fuel') by lia. exact Hrun.
Qed.

Lemma run_all_exits_holds (r : RegistrationList) log :
  holds r log →
  run_all_exits r
  = Some (lifo log, {| m_tail := m_tail r; m_heap := m_heap r; m_list := TailPtr |}).
Proof.
  destruct r as [tl h p]. unfold holds, run_all_exits. simpl. intros Hc.
  apply loop_chain; [exact Hc|]. eapply chain_ptr_valid. exact Hc.
Qed.

Lemma initial_holds : holds initial_list [].
Proof.
  unfold holds, initial_list. simpl.
  change (@nil ExitFunctionStorage)
    with (block_entries {| m_funcs := replicate (Z.to_nat BLOCK_SZ) null_exit; m_sz := 0 |}).
  constructor. split; simpl; [reflexivity | unfold BLOCK_SZ; lia].
Qed.

(** ** [RegistrationList::push_front] *)

Section PushFront.
Implicit Types (r : RegistrationList) (e : ExitFunctionStorage).

Lemma holds_head r log :
  holds r log → ∃ b, deref r (m_list r) = Some b ∧ block_ok b.
Proof. destruct r as [tl h p]. apply chain_block_ok. Qed.

Lemma full_false_room (b : FnBlock) : full b = false ↔ m_sz b ≠ BLOCK_SZ.
Proof. unfold full. apply Z.eqb_neq. Qed.

(** The head block has room: the entry goes into it, nothing is allocated
    and the head stays where it is. *)
Lemma push_front_room r log e alloc (b : FnBlock) :
  holds r log →
  deref r (m_list r) = Some b → full b = false →
  ∃ r', push_front e alloc r = Some (true, r')
        ∧ holds r' (log ++ [e])
        ∧ m_list r' = m_list r
        ∧ length (m_heap r') = length (m_heap r)
        ∧ (m_list r = TailPtr → m_heap r' = m_heap r).
Proof.
  destruct r as [tl h p]. unfold holds, push_front. simpl.
  intros Hc Hderef Hroom. rewrite Hderef. simpl. rewrite Hroom. simpl.
  inversion Hc as [Hok|a b0 next older Hlook Hok Hbelow Hc']; subst; simpl in *.
  - injection Hderef as <-.
    destruct (FnBlock_push_front_room e tl Hok) as (b' & -> & Hok' & _ & Hent);
      [apply full_false_room; exact Hroom|].
    simpl. eexists. split; [reflexivity|]. simpl.
    split; [|auto]. rewrite <- Hent. constructor. exact Hok'.
  - rewrite Hlook in Hderef. simpl in Hderef. injection Hderef as <-.
    destruct (FnBlock_push_front_room e b0 Hok) as (b' & -> & Hok' & _ & Hent);
      [apply full_false_room; exact Hroom|].
    simpl. eexists. split; [reflexivity|]. simpl.
    split; [|split; [reflexivity|split; [apply length_alter|discriminate]]].
    rewrite <- (assoc_L (++)), <- Hent.
    apply chain_node with (next := next); [|exact Hok'|exact Hbelow|].
    + rewrite list_lookup_alter_eq, Hlook. reflexivity.
    + apply (chain_frame tl h _ next older Hc' a Hbelow).
      intros a' Ha'. apply list_lookup_alter_ne. lia.
Qed.

(** The head block is full and no node can be had: failure, nothing
    changes. *)
Lemma push_front_full_fail r e (b : FnBlock) :
  deref r (m_list r) = Some b → full b = true →
  push_front e AllocFail r = Some (false, r).
Proof.
  intros Hderef Hfull. unfold push_front. rewrite Hderef. simpl.
  rewrite Hfull. reflexivity.
Qed.

(** The head block is full and the new node comes with a zero counter: the
    entry becomes the single entry of the new head. *)
Lemma push_front_grow r log e (b raw : FnBlock) :
  holds r log →
  deref r (m_list r) = Some b → full b = true →
  alloc_zeroed (AllocOk raw) →
  ∃ r', push_front e (AllocOk raw) r = Some (true, r')
        ∧ holds r' (log ++ [e])
        ∧ m_list r' = NodePtr (length (m_heap r))
        ∧ length (m_heap r') = S (length (m_heap r)).
Proof.
  destruct r as [tl h p]. unfold holds, push_front. simpl.
  intros Hc Hderef Hfull [Hlen Hzero]. rewrite Hderef. simpl. rewrite Hfull. simpl.
  assert (Hraw : block_ok raw)
    by (split; [exact Hlen | rewrite Hzero; unfold BLOCK_SZ; lia]).
  destruct (FnBlock_push_front_room e raw Hraw) as (b' & -> & Hok' & _ & Hent);
    [rewrite Hzero; discriminate|].
  simpl. eexists. split; [reflexivity|]. simpl.
  split; [|split; [reflexivity|rewrite length_app; simpl; lia]].
  assert (Hnil : block_entries raw = [])
    by (unfold block_entries; rewrite Hzero; apply take_0).
  rewrite Hnil in Hent. simpl in Hent. rewrite <- Hent.
  pose proof (chain_ptr_valid tl h p log Hc) as Hvalid.
  apply chain_node with (next := p); [|exact Hok'|exact Hvalid|].
  - apply list_lookup_middle. reflexivity.
  - apply (chain_frame tl h _ p log Hc (length h) Hvalid).
    intros a Ha. apply lookup_app_l. exact Ha.
Qed.

(** Whatever the head block and a failing or zero-counter allocation: the
    call is defined, and it either records the entry or fails and changes
    nothing. *)
Lemma push_front_holds r log e alloc :
  holds r log → alloc_zeroed alloc →
  ∃ ok r', push_front e alloc r = Some (ok, r')
           ∧ holds r' (if ok then log ++ [e] else log)
           ∧ (ok = false → r' = r).
Proof.
  intros Hh Hz. destruct (holds_head r log Hh) as (b & Hderef & Hok).
  destruct (full b) eqn:Hfull.
  - destruct alloc as [|raw].
    + exists false, r. rewrite (push_front_full_fail r e b Hderef Hfull). auto.
    + destruct (push_front_grow r log e b raw Hh Hderef Hfull Hz)
        as (r' & Hpush & Hh' & _).
      exists true, r'. repeat split; [exact Hpush | exact Hh' | discriminate].
  - destruct (push_front_room r log e alloc b Hh Hderef Hfull)
      as (r' & Hpush & Hh' & _).
    exists true, r'. repeat split; [exact Hpush | exact Hh' | discriminate].
Qed.

End PushFront.

(** ** Sequences of [__cxa_atexit] calls *)

Section Calls.
Implicit Types (st : Runtime) (cs : list Call) (c : Call).

Lemma atexit_of_push f p dso alloc st (ok : bool) (r' : RegistrationList) :
  push_front {| m_functionptr := f; m_userdata := p |} alloc (registry st) = Some (ok, r') →
  __cxa_atexit f p dso alloc st
  = Some (if ok then 0 else -1, {| CxaFinalizer := __finalize_noargs; registry := r' |}).
Proof. intros Hpush. unfold __cxa_atexit. rewrite Hpush. reflexivity. Qed.

Lemma atexit_inv f p dso alloc st (res : Z) st' :
  __cxa_atexit f p dso alloc st = Some (res, st') →
  ∃ ok : bool,
    push_front {| m_functionptr := f; m_userdata := p |} alloc (registry st)
    = Some (ok, registry st')
    ∧ res = (if ok then 0 else -1)
    ∧ CxaFinalizer st' = __finalize_noargs.
Proof.
  unfold __cxa_atexit.
  destruct (push_front _ alloc (registry st)) as [[ok r']|]; simpl; [|discriminate].
  intros [= <- <-]. exists ok. auto.
Qed.

Lemma atexit_calls_cons c cs st (res : Z) st1 (ress : list Z) st2 :
  __cxa_atexit (call_f c) (call_p c) (call_dso c) (call_alloc c) st = Some (res, st1) →
  atexit_calls cs st1 = Some (ress, st2) →
  atexit_calls (c :: cs) st = Some (res :: ress, st2).
Proof. intros H1 H2. simpl. rewrite H1. simpl. rewrite H2. reflexivity. Qed.

Lemma atexit_calls_app cs1 cs2 st (res1 res2 : list Z) st1 st2 :
  atexit_calls cs1 st = Some (res1, st1) →
  atexit_calls cs2 st1 = Some (res2, st2) →
  atexit_calls (cs1 ++ cs2) st = Some (res1 ++ res2, st2).
Proof.
  revert st res1. induction cs1 as [|c cs1 IH]; intros st res1 H1 H2.
  - injection H1 as <- <-. exact H2.
  - simpl in H1.
    destruct (__cxa_atexit _ _ _ _ st) as [[res sta]|] eqn:Hc; [|discriminate].
    simpl in H1.
    destruct (atexit_calls cs1 sta) as [[ress stb]|] eqn:Hcs; [|discriminate].
    injection H1 as <- <-.
    simpl. eapply atexit_calls_cons; [exact Hc|].
    eapply IH; [exact Hcs | exact H2].
Qed.

(** While fresh nodes come with a zero counter, every call is defined and
    the registry holds exactly the entries of the calls that returned 0. *)
Lemma atexit_calls_holds cs :
  ∀ st log,
    holds (registry st) log →
    Forall (λ c, alloc_zeroed (call_alloc c)) cs →
    ∃ ress st', atexit_calls cs st = Some (ress, st')
                ∧ length ress = length cs
                ∧ holds (registry st') (log ++ accepted cs ress).
Proof.
  induction cs as [|c cs IH]; intros st log Hh Hz.
  - exists [], st. simpl. rewrite (right_id_L [] (++)). auto.
  - inversion Hz as [|? ? Hzc Hzcs]; subst.
    destruct (push_front_holds (registry st) log (entry_of c) (call_alloc c) Hh Hzc)
      as (ok & r' & Hpush & Hh' & _).
    pose proof (atexit_of_push (call_f c) (call_p c) (call_dso c) _ st ok r' Hpush) as Hc.
    destruct (IH {| CxaFinalizer := __finalize_noargs; registry := r' |}
                 (if ok then log ++ [entry_of c] else log) Hh' Hzcs)
      as (ress & st' & Hcs & Hlen & Hh'').
    exists ((if ok then 0 else -1) :: ress), st'.
    split; [eapply atexit_calls_cons; eassumption|].
    split; [simpl; lia|].
    destruct ok; simpl; [|exact Hh''].
    rewrite <- (assoc_L (++)) in Hh''. exact Hh''.
Qed.

Lemma holds_tail (r : RegistrationList) log :
  holds r log → m_list r = TailPtr →
  log = block_entries (m_tail r) ∧ block_ok (m_tail r).
Proof.
  destruct r as [tl h p]. unfold holds. simpl. intros Hc ->.
  inversion Hc; subst. auto.
Qed.

(** While the tail block has room the calls succeed without asking the
    allocator, whatever it would answer. *)
Lemma atexit_calls_tail cs :
  ∀ st log,
    holds (registry st) log →
    m_list (registry st) = TailPtr →
    m_heap (registry st) = [] →
    (length log + length cs ≤ Z.to_nat BLOCK_SZ)%nat →
    ∃ st', atexit_calls cs st = Some (replicate (length cs) 0, st')
           ∧ holds (registry st') (log ++ (entry_of <$> cs))
           ∧ m_list (registry st') = TailPtr
           ∧ m_heap (registry st') = [].
Proof.
  induction cs as [|c cs IH]; intros st log Hh Htail Hheap Hlen.
  - exists st. simpl. rewrite (right_id_L [] (++)). auto.
  - simpl in Hlen.
    destruct (holds_tail _ _ Hh Htail) as [Hlog Hok].
    assert (Hroom : full (m_tail (registry st)) = false).
    { apply full_false_room. intros Hfull.
      pose proof (block_entries_length _ Hok) as Hl.
      rewrite <- Hlog, Hfull in Hl. unfold BLOCK_SZ in *. lia. }
    destruct (push_front_room (registry st) log (entry_of c) (call_alloc c)
                (m_tail (registry st)) Hh) as (r' & Hpush & Hh' & Hl' & _ & Hhp');
      [rewrite Htail; reflexivity | exact Hroom |].
    pose proof (atexit_of_push (call_f c) (call_p c) (call_dso c) _ st true r' Hpush) as Hc.
    destruct (IH {| CxaFinalizer := __finalize_noargs; registry := r' |}
                 (log ++ [entry_of c]) Hh') as (st' & Hcs & Hh'' & Hl'' & Hhp'').
    + simpl. congruence.
    + simpl. rewrite Hhp' by exact Htail. exact Hheap.
    + rewrite length_app. simpl. lia.
    + exists st'. split; [|split; [|auto]].
      * simpl replicate. eapply atexit_calls_cons; eassumption.
      * rewrite <- (assoc_L (++)) in Hh''. exact Hh''.
Qed.

End Calls.

(** Every completed call leaves the slot armed. *)
Lemma atexit_calls_armed (cs : list Call) :
  ∀ (st : Runtime) (ress : list Z) (st' : Runtime),
    atexit_calls cs st = Some (ress, st') →
    cs ≠ [] ∨ CxaFinalizer st = __finalize_noargs →
    CxaFinalizer st' = __finalize_noargs.
Proof.
  induction cs as [|c cs IH]; intros st ress st' Hcs Harm.
  - injection Hcs as <- <-. destruct Harm as [Hne|Ha]; [contradiction | exact Ha].
  - simpl in Hcs.
    destruct (__cxa_atexit _ _ _ _ st) as [[res sta]|] eqn:Hc; [|discriminate].
    simpl in Hcs.
    destruct (atexit_calls cs sta) as [[ress' stb]|] eqn:Hcs'; [|discriminate].
    injection Hcs as <- <-.
    apply atexit_inv in Hc. destruct Hc as (ok & _ & _ & Hc).
    eapply IH; [exact Hcs' | right; exact Hc].
Qed.

(** The events of a run, written out: entry [{f, p}] is the call [f(p)]. *)
Lemma lifo_events (es : list ExitFunctionStorage) :
  lifo es = (λ s, Invoke (m_functionptr s) (m_userdata s)) <$> reverse es.
Proof. reflexivity. Qed.

Lemma lifo_entry_of (cs : list Call) :
  lifo (entry_of <$> cs) = (λ c, Invoke (call_f c) (call_p c)) <$> reverse cs.
Proof.
  unfold lifo. rewrite <- fmap_reverse, <- list_fmap_compose. reflexivity.
Qed.

Lemma accepted_entries (cs : list Call) :
  ∀ res, accepted cs res = entry_of <$> accepted_calls cs res.
Proof.
  induction cs as [|c cs IH]; intros [|x res]; try reflexivity.
  simpl. destruct (x =? 0); simpl; rewrite IH; reflexivity.
Qed.

(** ** The registry: order, failure, exhaustion *)

(** X1. While every fresh node comes with a zero counter, a traversal
    after any sequence of calls makes, for the calls that returned 0, each
    once and last registered first, the call [f(p)] of the call's own
    arguments, however many blocks the entries span. *)
Theorem lifo_when_fresh_counters_zero (cs : list Call) :
  Forall (λ c, alloc_zeroed (call_alloc c)) cs →
  ∃ ress st r',
    atexit_calls cs initial = Some (ress, st)
    ∧ length ress = length cs
    ∧ run_all_exits (registry st)
      = Some ((λ c, Invoke (call_f c) (call_p c)) <$> reverse (accepted_calls cs ress), r')
    ∧ fire_hook st
      = (if decide (cs = []) then Some ([], st)
         else Some ((λ c, Invoke (call_f c) (call_p c)) <$> reverse (accepted_calls cs ress),
                    {| CxaFinalizer := __finalize_noargs; registry := r' |})).
Proof.
  intros Hz.
  destruct (atexit_calls_holds cs initial [] initial_holds Hz)
    as (ress & st & Hcs & Hlen & Hh).
  simpl in Hh. pose proof (run_all_exits_holds _ _ Hh) as Hrun.
  rewrite accepted_entries, lifo_entry_of in Hrun.
  exists ress, st. eexists. split; [exact Hcs|]. split; [exact Hlen|].
  split; [exact Hrun|].
  destruct (decide (cs = [])) as [->|Hne].
  - injection Hcs as <- <-. reflexivity.
  - pose proof (atexit_calls_armed cs initial ress st Hcs (or_introl Hne)) as Hst.
    unfold fire_hook. rewrite Hst. simpl. rewrite Hrun. reflexivity.
Qed.

(** The scenario of 40 markers: one node is allocated, by the 33rd call,
    and the traversal runs 40, 39, ..., 1. *)
Example forty_markers :
  ∃ st r',
    atexit_calls (marker_calls (AllocOk (stale_storage 0)) 0 40) initial
    = Some (replicate 40 0, st)
    ∧ length (m_heap (registry st)) = 1%nat
    ∧ run_all_exits (registry st)
      = Some ((λ k, Invoke k k) <$> reverse (seqZ 1 40), r').
Proof. do 2 eexists. vm_compute. repeat split. Qed.

(** C1. Global LIFO traversal order, evaluated on 33 successful
    registrations whose one fresh node arrives as well-typed storage with
    the counter byte 1.  All 33 calls return 0, yet the traversal calls the
    never-registered contents of slot 0 of the node right after the 33rd
    callback, so it is not the reverse of the registration order. *)
Theorem lifo_fails_on_stale_counter :
  block_typed (stale_storage 1)
  ∧ ∃ st t r',
    atexit_calls (calls_with_stale_node 1) initial = Some (replicate 33 0, st)
    ∧ run_all_exits (registry st) = Some (t, r')
    ∧ t = Invoke 33 33 :: Invoke 57005 48879
          :: lifo (entry_of <$> marker_calls AllocFail 0 32)
    ∧ t ≠ lifo (entry_of <$> calls_with_stale_node 1).
Proof.
  split; [split; [reflexivity | unfold stale_storage; simpl; lia]|].
  do 3 eexists. split; [vm_compute; reflexivity|].
  split; [vm_compute; reflexivity|].
  split; [vm_compute; reflexivity|].
  vm_compute. discriminate.
Qed.

(** C2. Allocation-failure atomicity.  When the block [m_list] points at is
    full and the allocation fails, [push_front] returns [false] and the
    registry (head pointer, every block, every entry) is the one it was. *)
Theorem allocation_failure_atomic
    (r : RegistrationList) (e : ExitFunctionStorage) (b : FnBlock) :
  deref r (m_list r) = Some b → full b = true →
  push_front e AllocFail r = Some (false, r).
Proof. apply push_front_full_fail. Qed.

Lemma allocation_failure_atomic_witness :
  deref full_tail_list (m_list full_tail_list) = Some (m_tail full_tail_list)
  ∧ full (m_tail full_tail_list) = true
  ∧ push_front {| m_functionptr := 1; m_userdata := 2 |} AllocFail full_tail_list
    = Some (false, full_tail_list).
Proof.
  split; [reflexivity|]. split; [reflexivity|].
  apply (allocation_failure_atomic full_tail_list _ (m_tail full_tail_list));
    reflexivity.
Defined.

(** C3. No-allocation floor.  From the initial state, up to [BLOCK_SZ] = 32
    calls all return 0 whatever the allocator would answer (so also when it
    always fails); no node is created, the head stays the static tail block,
    and the tail block holds the entries in registration order. *)
Theorem no_allocation_floor (cs : list Call) :
  (length cs ≤ 32)%nat →
  ∃ st,
    atexit_calls cs initial = Some (replicate (length cs) 0, st)
    ∧ m_heap (registry st) = []
    ∧ m_list (registry st) = TailPtr
    ∧ m_sz (m_tail (registry st)) = Z.of_nat (length cs)
    ∧ take (length cs) (m_funcs (m_tail (registry st))) = entry_of <$> cs.
Proof.
  intros Hlen.
  destruct (atexit_calls_tail cs initial [] initial_holds eq_refl eq_refl)
    as (st & Hcs & Hh & Htail & Hheap); [simpl; unfold BLOCK_SZ; lia|].
  simpl in Hh. destruct (holds_tail _ _ Hh Htail) as [Hlog Hok].
  pose proof (block_entries_length _ Hok) as Hl.
  rewrite <- Hlog, length_fmap in Hl.
  assert (Hsz : m_sz (m_tail (registry st)) = Z.of_nat (length cs))
    by (destruct Hok as [_ Hsz]; lia).
  exists st. repeat split; try assumption.
  rewrite Hlog. unfold block_entries. rewrite Hsz, Nat2Z.id. reflexivity.
Qed.

Lemma no_allocation_floor_witness :
  (length (marker_calls AllocFail 0 32) ≤ 32)%nat
  ∧ ∃ st, atexit_calls (marker_calls AllocFail 0 32) initial
          = Some (replicate 32 0, st)
          ∧ m_heap (registry st) = [].
Proof.
  split; [vm_compute; lia|].
  destruct (no_allocation_floor (marker_calls AllocFail 0 32)) as (st & H1 & H2 & _);
    [vm_compute; lia|].
  exists st. split; [exact H1 | exact H2].
Defined.

(** C4. Graceful exhaustion.  After 32 calls, a 33rd call during which the
    allocation fails returns -1; the traversal then makes exactly the 32
    calls [f(p)] of the first 32 registrations, each function with the
    argument registered with it, last registered first, and so does firing
    the hook. *)
Theorem graceful_exhaustion (cs : list Call) (c : Call) :
  length cs = 32%nat → call_alloc c = AllocFail →
  ∃ st r',
    atexit_calls (cs ++ [c]) initial = Some (replicate 32 0 ++ [-1], st)
    ∧ run_all_exits (registry st)
      = Some ((λ c, Invoke (call_f c) (call_p c)) <$> reverse cs, r')
    ∧ fire_hook st
      = Some ((λ c, Invoke (call_f c) (call_p c)) <$> reverse cs,
              {| CxaFinalizer := __finalize_noargs; registry := r' |}).
Proof.
  intros Hlen Hfail.
  destruct (atexit_calls_tail cs initial [] initial_holds eq_refl eq_refl)
    as (st & Hcs & Hh & Htail & Hheap); [simpl; unfold BLOCK_SZ; lia|].
  simpl in Hh. rewrite Hlen in Hcs.
  destruct (holds_tail _ _ Hh Htail) as [Hlog Hok].
  assert (Hfull : full (m_tail (registry st)) = true).
  { apply full_spec. pose proof (block_entries_length _ Hok) as Hl.
    rewrite <- Hlog, length_fmap, Hlen in Hl.
    destruct Hok as [_ Hsz]. unfold BLOCK_SZ in *. lia. }
  assert (Hpush : push_front (entry_of c) AllocFail (registry st)
                  = Some (false, registry st))
    by (eapply push_front_full_fail; [rewrite Htail; reflexivity | exact Hfull]).
  pose proof (atexit_of_push (call_f c) (call_p c) (call_dso c) AllocFail st
                false (registry st) Hpush) as Hc.
  rewrite <- Hfail in Hc.
  pose proof (run_all_exits_holds _ _ Hh) as Hrun.
  rewrite lifo_entry_of in Hrun.
  exists {| CxaFinalizer := __finalize_noargs; registry := registry st |}.
  eexists. split; [|split; [exact Hrun|]].
  - eapply atexit_calls_app; [exact Hcs|].
    eapply atexit_calls_cons; [exact Hc | reflexivity].
  - unfold fire_hook. simpl. rewrite Hrun. reflexivity.
Qed.

Lemma graceful_exhaustion_witness :
  length (marker_calls AllocFail 0 32) = 32%nat
  ∧ ∃ st r',
      atexit_calls (marker_calls AllocFail 0 32
                    ++ [{| call_f := 33; call_p := 33; call_dso := 0;
                           call_alloc := AllocFail |}]) initial
      = Some (replicate 32 0 ++ [-1], st)
      ∧ run_all_exits (registry st)
        = Some ((λ k, Invoke k k) <$> reverse (seqZ 1 32), r').
Proof.
  split; [reflexivity|].
  destruct (graceful_exhaustion (marker_calls AllocFail 0 32)
              {| call_f := 33; call_p := 33; call_dso := 0; call_alloc := AllocFail |})
    as (st & r' & H1 & H2 & _); [reflexivity | reflexivity |].
  exists st, r'. split; [exact H1 | exact H2].
Defined.

(** ** The entry point and the finalizer slot *)

(** C7. Registration return convention.  Whenever the underlying
    [push_front] of [{f, p}] answers, [__cxa_atexit] returns 0 exactly when
    that answer is [true] and a non-zero value (-1) exactly when it is
    [false], the registry it leaves is the one [push_front] left, and the
    third argument changes neither the result nor the state. *)
Theorem atexit_return_convention
    (f p dso : Z) (alloc : alloc_result) (st : Runtime)
    (ok : bool) (r' : RegistrationList) :
  push_front {| m_functionptr := f; m_userdata := p |} alloc (registry st)
  = Some (ok, r') →
  ∃ res st',
    __cxa_atexit f p dso alloc st = Some (res, st')
    ∧ registry st' = r'
    ∧ (res = 0 ↔ ok = true)
    ∧ (res ≠ 0 ↔ ok = false)
    ∧ ∀ dso', __cxa_atexit f p dso' alloc st = Some (res, st').
Proof.
  intros Hpush. eexists. eexists.
  split; [apply atexit_of_push; exact Hpush|].
  split; [reflexivity|].
  split; [|split].
  - destruct ok; split; intros H; try reflexivity; discriminate.
  - destruct ok; split; intros H; try reflexivity; try discriminate.
    contradiction H. reflexivity.
  - intros dso'. apply atexit_of_push. exact Hpush.
Qed.

Lemma atexit_return_convention_witness :
  push_front {| m_functionptr := 1; m_userdata := 2 |} AllocFail full_tail_list
  = Some (false, full_tail_list)
  ∧ ∃ res st',
      __cxa_atexit 1 2 3 AllocFail
        {| CxaFinalizer := NoOpFinalize; registry := full_tail_list |}
      = Some (res, st')
      ∧ res ≠ 0.
Proof.
  split; [reflexivity|].
  destruct (atexit_return_convention 1 2 3 AllocFail
              {| CxaFinalizer := NoOpFinalize; registry := full_tail_list |}
              false full_tail_list eq_refl)
    as (res & st' & Hcall & _ & _ & Hnz & _).
  exists res, st'. split; [exact Hcall | apply Hnz; reflexivity].
Defined.

(** The call is undefined exactly when the underlying push is. *)
Lemma atexit_undefined (f p dso : Z) (alloc : alloc_result) (st : Runtime) :
  __cxa_atexit f p dso alloc st = None
  ↔ push_front {| m_functionptr := f; m_userdata := p |} alloc (registry st) = None.
Proof.
  unfold __cxa_atexit.
  destruct (push_front _ alloc (registry st)) as [[ok r']|]; simpl;
    split; intros H; try reflexivity; discriminate.
Qed.

(** C8. Shutdown-hook arming.  At program start the slot holds the no-op,
    and firing it does nothing.  After any non-empty sequence of completed
    [__cxa_atexit] calls, whatever each of them returned, the slot holds
    [__finalize_noargs], and firing it once is one run of [run_all_exits]. *)
Theorem hook_arming
    (cs : list Call) (st : Runtime) (ress : list Z) (st' : Runtime) :
  cs ≠ [] →
  atexit_calls cs st = Some (ress, st') →
  CxaFinalizer initial = NoOpFinalize
  ∧ fire_hook initial = Some ([], initial)
  ∧ CxaFinalizer st' = __finalize_noargs
  ∧ fire_hook st'
    = ('(t, r') ← run_all_exits (registry st');
       Some (t, {| CxaFinalizer := __finalize_noargs; registry := r' |})).
Proof.
  intros Hne Hcs.
  pose proof (atexit_calls_armed cs st ress st' Hcs (or_introl Hne)) as Harmed.
  split; [reflexivity|]. split; [reflexivity|]. split; [exact Harmed|].
  unfold fire_hook. rewrite Harmed. reflexivity.
Qed.

Lemma hook_arming_witness :
  marker_calls AllocFail 0 33 ≠ []
  ∧ ∃ st',
      atexit_calls (marker_calls AllocFail 0 33) initial
      = Some (replicate 32 0 ++ [-1], st')
      ∧ CxaFinalizer st' = __finalize_noargs.
Proof.
  split; [discriminate|].
  eexists. split; [vm_compute; reflexivity|].
  eapply (hook_arming (marker_calls AllocFail 0 33) initial);
    [discriminate | vm_compute; reflexivity].
Defined.

(** C9. Zero-registration no-op.  When [m_list] is the tail block and its
    count is 0, as at program start, [run_all_exits] calls nothing, is
    defined, and leaves the registry (so also the arena) as it was. *)
Theorem zero_registration_noop (r : RegistrationList) :
  m_list r = TailPtr → m_sz (m_tail r) = 0 →
  run_all_exits r = Some ([], r).
Proof.
  destruct r as [tl h p]. simpl. intros -> Hzero.
  unfold run_all_exits. simpl.
  destruct (length h); simpl; unfold FnBlock_run_all; rewrite Hzero; reflexivity.
Qed.

Lemma zero_registration_noop_witness :
  m_list initial_list = TailPtr
  ∧ m_sz (m_tail initial_list) = 0
  ∧ run_all_exits (registry initial) = Some ([], initial_list)
  ∧ fire_hook initial = Some ([], initial).
Proof.
  split; [reflexivity|]. split; [reflexivity|].
  split; [apply (zero_registration_noop initial_list); reflexivity | reflexivity].
Defined.

(** ** Bounds *)

(** While every fresh node comes with a zero counter, every block of the
    list keeps its counter within the array and every push is a store
    inside the array. *)
Lemma in_bounds_when_fresh_counters_zero
    (cs : list Call) (c : Call) :
  Forall (λ c, alloc_zeroed (call_alloc c)) (cs ++ [c]) →
  ∃ ress st b,
    atexit_calls cs initial = Some (ress, st)
    ∧ deref (registry st) (m_list (registry st)) = Some b
    ∧ block_ok b
    ∧ is_Some (push_front (entry_of c) (call_alloc c) (registry st)).
Proof.
  intros Hz. apply Forall_app in Hz. destruct Hz as [Hcs Hc].
  inversion Hc as [|? ? Hc1 _]; subst.
  destruct (atexit_calls_holds cs initial [] initial_holds Hcs)
    as (ress & st & Hrun & _ & Hh).
  destruct (holds_head _ _ Hh) as (b & Hderef & Hok).
  destruct (push_front_holds _ _ (entry_of c) _ Hh Hc1) as (ok & r' & Hpush & _).
  exists ress, st, b. rewrite Hpush. eauto.
Qed.

(** C10. In-bounds storage, evaluated on 33 registrations whose one fresh
    node arrives with the counter byte 32.  The storage is a well-typed
    [FnBlock]; [RegistrationList::push_front] pushes into the fresh node
    without a [full()] test, and the store [m_funcs[32]] is outside the
    array. *)
Theorem push_out_of_bounds_on_stale_counter :
  block_typed (stale_storage 32)
  ∧ FnBlock_push_front {| m_functionptr := 33; m_userdata := 33 |} (stale_storage 32) = None
  ∧ (∃ st, atexit_calls (marker_calls AllocFail 0 32) initial = Some (replicate 32 0, st)
           ∧ full (m_tail (registry st)) = true
           ∧ push_front {| m_functionptr := 33; m_userdata := 33 |}
               (AllocOk (stale_storage 32)) (registry st) = None)
  ∧ atexit_calls (calls_with_stale_node 32) initial = None.
Proof.
  split; [split; [reflexivity | unfold stale_storage; simpl; lia]|].
  split; [reflexivity|].
  split; [|vm_compute; reflexivity].
  eexists. split; [vm_compute; reflexivity|].
  split; vm_compute; reflexivity.
Qed.

(** * Further properties of the code *)

(** ** Blocks and single calls *)

(** X8. [FnBlock::push_front] followed by [FnBlock::run_all]: in a block with
    room the pushed entry [{f, p}] is stored at slot [m_sz], inside the
    array, and the older slots keep their contents; the run of the new
    block makes the call [f(p)] first and then the calls of the slots
    [m_sz - 1 .. 0], which is what the run of the old block makes.  The
    block becomes full exactly when its count was [BLOCK_SZ - 1]. *)
Theorem block_push_then_run (e : ExitFunctionStorage) (b : FnBlock) :
  block_ok b → full b = false →
  ∃ b',
    FnBlock_push_front e b = Some b'
    ∧ FnBlock_run_all b
      = Some ((λ s, Invoke (m_functionptr s) (m_userdata s))
                <$> reverse (take (Z.to_nat (m_sz b)) (m_funcs b)))
    ∧ FnBlock_run_all b'
      = Some (Invoke (m_functionptr e) (m_userdata e)
              :: ((λ s, Invoke (m_functionptr s) (m_userdata s))
                    <$> reverse (take (Z.to_nat (m_sz b)) (m_funcs b))))
    ∧ m_funcs b' !! Z.to_nat (m_sz b) = Some e
    ∧ (∀ i, (i < Z.to_nat (m_sz b))%nat → m_funcs b' !! i = m_funcs b !! i)
    ∧ (full b' = true ↔ m_sz b = BLOCK_SZ - 1).
Proof.
  intros Hok Hroom.
  destruct (FnBlock_push_front_room e b Hok) as (b' & Hpush & Hok' & Hsz & Hent);
    [apply full_false_room; exact Hroom|].
  exists b'.
  split; [exact Hpush|].
  split; [rewrite (run_all_ok _ Hok); reflexivity|].
  split; [|split; [|split]].
  - rewrite (run_all_ok _ Hok'), Hent, lifo_app. reflexivity.
  - unfold FnBlock_push_front in Hpush.
    destruct (m_funcs b !! Z.to_nat (m_sz b)) eqn:Hold; [|discriminate].
    injection Hpush as <-. simpl. apply list_lookup_insert_eq.
    eapply lookup_lt_Some. exact Hold.
  - intros i Hi. unfold FnBlock_push_front in Hpush.
    destruct (m_funcs b !! Z.to_nat (m_sz b)); [|discriminate].
    injection Hpush as <-. simpl. apply list_lookup_insert_ne. lia.
  - rewrite full_spec, Hsz. unfold BLOCK_SZ. lia.
Qed.

Lemma block_push_then_run_witness :
  block_ok nearly_full_block
  ∧ full nearly_full_block = false
  ∧ ∃ b', FnBlock_push_front {| m_functionptr := 5; m_userdata := 6 |} nearly_full_block
          = Some b'
          ∧ FnBlock_run_all nearly_full_block = Some (replicate 31 (Invoke 7 9))
          ∧ FnBlock_run_all b' = Some (Invoke 5 6 :: replicate 31 (Invoke 7 9))
          ∧ m_funcs b' !! 31%nat = Some {| m_functionptr := 5; m_userdata := 6 |}
          ∧ m_funcs b' !! 30%nat = Some {| m_functionptr := 7; m_userdata := 9 |}
          ∧ full b' = true.
Proof.
  assert (Hok : block_ok nearly_full_block)
    by (split; [reflexivity | simpl; unfold BLOCK_SZ; lia]).
  split; [exact Hok|]. split; [reflexivity|].
  destruct (block_push_then_run {| m_functionptr := 5; m_userdata := 6 |}
              nearly_full_block Hok eq_refl)
    as (b' & Hpush & Hrun & Hrun' & Hnew & Hkeep & Hfull).
  exists b'. split; [exact Hpush|]. split; [exact Hrun|]. split; [exact Hrun'|].
  split; [exact Hnew|].
  split; [rewrite Hkeep by (simpl; lia); reflexivity|].
  apply Hfull. reflexivity.
Defined.

(** X5. A call of [__cxa_atexit] that returns non-zero returns -1, and it does
    so only when the block [m_list] points at is full and the allocation
    returned null; the registry is then exactly the one before the call
    (the slot is armed all the same). *)
Theorem atexit_fails_only_when_full_and_no_memory
    (f p dso : Z) (alloc : alloc_result) (st : Runtime) (res : Z) (st' : Runtime) :
  __cxa_atexit f p dso alloc st = Some (res, st') →
  res ≠ 0 →
  res = -1
  ∧ alloc = AllocFail
  ∧ registry st' = registry st
  ∧ CxaFinalizer st' = __finalize_noargs
  ∧ ∃ b, deref (registry st) (m_list (registry st)) = Some b ∧ full b = true.
Proof.
  intros Hcall Hnz.
  destruct (atexit_inv _ _ _ _ _ _ _ Hcall) as (ok & Hpush & -> & Harmed).
  destruct ok; [contradiction Hnz; reflexivity|].
  split; [reflexivity|].
  unfold push_front in Hpush.
  destruct (deref (registry st) (m_list (registry st))) as [b|] eqn:Hderef;
    [|discriminate].
  simpl in Hpush. destruct (full b) eqn:Hfull; simpl in Hpush.
  - destruct alloc as [|raw].
    + injection Hpush as Hsame. eauto 10.
    + destruct (FnBlock_push_front _ raw); discriminate.
  - destruct (FnBlock_push_front _ b); discriminate.
Qed.

Lemma atexit_fails_only_when_full_and_no_memory_witness :
  ∃ st',
    __cxa_atexit 1 2 3 AllocFail
      {| CxaFinalizer := NoOpFinalize; registry := full_tail_list |}
    = Some (-1, st')
    ∧ -1 ≠ 0
    ∧ registry st' = full_tail_list.
Proof.
  eexists. split; [reflexivity|]. split; [discriminate|].
  eapply (atexit_fails_only_when_full_and_no_memory 1 2 3 AllocFail
            {| CxaFinalizer := NoOpFinalize; registry := full_tail_list |} (-1));
    [reflexivity | discriminate].
Defined.

(** ** Traversals *)

(** What any finished run of the loop leaves and ends with. *)
Lemma loop_consumes (fuel : nat) :
  ∀ (r : RegistrationList) t r1,
    run_all_exits_loop fuel r = Some (t, r1) →
    r1 = {| m_tail := m_tail r; m_heap := m_heap r; m_list := TailPtr |}
    ∧ ∃ t_nodes t_tail,
        t = t_nodes ++ t_tail ∧ FnBlock_run_all (m_tail r) = Some t_tail.
Proof.
  assert (Htail : ∀ r t r1,
             m_list r = TailPtr →
             (t0 ← FnBlock_run_all (m_tail r); Some (t0, r)) = Some (t, r1) →
             r1 = {| m_tail := m_tail r; m_heap := m_heap r; m_list := TailPtr |}
             ∧ ∃ t_nodes t_tail,
                 t = t_nodes ++ t_tail ∧ FnBlock_run_all (m_tail r) = Some t_tail).
  { intros [tl h p] t r1 Hp Hrun. simpl in *. subst p.
    destruct (FnBlock_run_all tl) as [t0|]; simpl in Hrun; [|discriminate].
    injection Hrun as <- <-. split; [reflexivity|]. exists [], t0. auto. }
  induction fuel as [|fuel IH]; intros r t r1 Hrun; simpl in Hrun.
  - destruct (m_list r) eqn:Hp; [|discriminate]. apply Htail; assumption.
  - destruct (m_list r) as [|a] eqn:Hp; [apply Htail; assumption|].
    destruct (m_heap r !! a) as [node|]; simpl in Hrun; [|discriminate].
    destruct (FnBlock_run_all (node_block node)) as [t0|]; simpl in Hrun;
      [|discriminate].
    destruct (run_all_exits_loop fuel _) as [[t' r']|] eqn:Hrest; [|discriminate].
    injection Hrun as <- <-.
    destruct (IH _ _ _ Hrest) as (-> & t_nodes & t_tail & -> & Hrt). simpl in *.
    split; [reflexivity|]. exists (t0 ++ t_nodes), t_tail.
    rewrite (assoc_L (++)). auto.
Qed.

(** X7. [run_all_exits] consumes the list but clears nothing: a finished
    traversal leaves [m_list] at the tail block and every block, the tail's
    counter included, as it was.  A second traversal therefore calls the
    entries of the tail block once more, and only those. *)
Theorem second_traversal_reruns_tail
    (r : RegistrationList) (t : list Event) (r1 : RegistrationList) :
  run_all_exits r = Some (t, r1) →
  m_list r1 = TailPtr ∧ m_tail r1 = m_tail r ∧ m_heap r1 = m_heap r
  ∧ ∃ t_nodes t_tail,
      t = t_nodes ++ t_tail
      ∧ FnBlock_run_all (m_tail r) = Some t_tail
      ∧ run_all_exits r1 = Some (t_tail, r1).
Proof.
  unfold run_all_exits. intros Hrun.
  destruct (loop_consumes _ _ _ _ Hrun) as (-> & t_nodes & t_tail & -> & Htl).
  simpl. repeat split. exists t_nodes, t_tail.
  split; [reflexivity|]. split; [exact Htl|].
  destruct (length (m_heap r)); simpl; rewrite Htl; reflexivity.
Qed.

Lemma second_traversal_reruns_tail_witness :
  ∃ r1,
    run_all_exits two_block_list
    = Some (Invoke 8 10 :: replicate 32 (Invoke 7 9), r1)
    ∧ run_all_exits r1 = Some (replicate 32 (Invoke 7 9), r1).
Proof.
  exists {| m_tail := m_tail two_block_list; m_heap := m_heap two_block_list;
            m_list := TailPtr |}.
  split; [vm_compute; reflexivity|].
  destruct (second_traversal_reruns_tail two_block_list
              (Invoke 8 10 :: replicate 32 (Invoke 7 9))
              {| m_tail := m_tail two_block_list; m_heap := m_heap two_block_list;
                 m_list := TailPtr |})
    as (_ & _ & _ & t_nodes & t_tail & _ & Htl & Hagain); [vm_compute; reflexivity|].
  rewrite Hagain. vm_compute in Htl. injection Htl as <-. reflexivity.
Defined.

(** ** Guards *)

Module GuardProtocol.
Import Guard.

(** X9. [__cxa_guard_acquire] does not mark the guard.  On an 8-byte guard
    object whose first byte is zero, after any sequence of guard operations
    an acquire answers 1 exactly when the sequence contains no release, and
    0 exactly when it contains one. *)
Theorem guard_uninitialised_until_release (g : guard_object) (ops : list guard_op) :
  length g = 8%nat → g !! first_byte = Some x00 →
  ∃ g', guard_steps g ops = Some g'
        ∧ (__cxa_guard_acquire g' = Some 1 ↔ Release ∉ ops)
        ∧ (__cxa_guard_acquire g' = Some 0 ↔ Release ∈ ops).
Proof.
  intros Hlen Hzero. induction ops as [|op ops IH].
  - exists g. split; [reflexivity|].
    rewrite (GuardSpec.acquire_value g x00 Hzero). simpl.
    split; split; intros H; try reflexivity; try discriminate.
    + apply not_elem_of_nil.
    + apply elem_of_nil in H. contradiction.
  - destruct op.
    + destruct IH as (g' & Hsteps & H1 & H0).
      exists g'. split.
      * simpl. rewrite (GuardSpec.acquire_value g x00 Hzero). simpl. exact Hsteps.
      * rewrite H1, H0, not_elem_of_cons, elem_of_cons.
        split; split; intros H; try tauto.
        -- split; [discriminate | exact H].
        -- destruct H as [H|H]; [discriminate | exact H].
    + destruct (GuardSpec.release_value g Hlen) as (b0 & rest & -> & Hrel).
      destruct (GuardSpec.steps_stay_initialized ops (x01 :: rest) x01)
        as (g2 & b2 & Hs & Hb2 & Hnz & _); [reflexivity | discriminate |].
      exists g2. split; [simpl; exact Hs|].
      rewrite (GuardSpec.acquire_value g2 b2 Hb2).
      destruct (Byte.eqb b2 x00) eqn:E;
        [apply byte_dec_bl in E; contradiction|].
      rewrite not_elem_of_cons, elem_of_cons.
      split; split; intros H; try reflexivity; try discriminate; tauto.
Qed.

Lemma guard_uninitialised_until_release_witness :
  length [x00; x00; x00; x00; x00; x00; x00; x00] = 8%nat
  ∧ ∃ g', guard_steps [x00; x00; x00; x00; x00; x00; x00; x00] [Acquire; Acquire]
          = Some g'
          ∧ __cxa_guard_acquire g' = Some 1.
Proof.
  split; [reflexivity|].
  destruct (guard_uninitialised_until_release
              [x00; x00; x00; x00; x00; x00; x00; x00] [Acquire; Acquire]
              eq_refl eq_refl) as (g' & Hsteps & H1 & _).
  exists g'. split; [exact Hsteps|]. apply H1.
  intros Hin. apply elem_of_cons in Hin. destruct Hin as [Hin|Hin]; [discriminate|].
  apply elem_of_cons in Hin. destruct Hin as [Hin|Hin]; [discriminate|].
  apply elem_of_nil in Hin. exact Hin.
Defined.

End GuardProtocol.

(** ** Exhaustion and stale storage *)

(** On a full head block every call whose allocation fails returns -1 and
    leaves the registry alone. *)
Lemma atexit_calls_all_fail (cs : list Call) :
  ∀ (st : Runtime) (b : FnBlock),
    deref (registry st) (m_list (registry st)) = Some b → full b = true →
    Forall (λ c, call_alloc c = AllocFail) cs →
    ∃ st', atexit_calls cs st = Some (replicate (length cs) (-1), st')
           ∧ registry st' = registry st.
Proof.
  induction cs as [|c cs IH]; intros st b Hderef Hfull Hfail.
  - exists st. split; reflexivity.
  - inversion Hfail as [|? ? Hc Hcs]; subst.
    pose proof (push_front_full_fail (registry st) (entry_of c) b Hderef Hfull) as Hpush.
    pose proof (atexit_of_push (call_f c) (call_p c) (call_dso c) AllocFail st
                  false (registry st) Hpush) as Hcall.
    rewrite <- Hc in Hcall.
    destruct (IH {| CxaFinalizer := __finalize_noargs; registry := registry st |} b
                Hderef Hfull Hcs) as (st' & Hrest & Hsame).
    exists st'. split; [|exact Hsame].
    simpl replicate. eapply atexit_calls_cons; eassumption.
Qed.

(** X4. With an allocator that always fails, any number of calls from the
    initial state is defined: the first 32 return 0, every later one returns
    -1, no node exists, and the traversal makes exactly the calls [f(p)] of
    the first 32 calls' arguments, last registered first. *)
Theorem exhaustion_any_length (cs : list Call) :
  Forall (λ c, call_alloc c = AllocFail) cs →
  ∃ st r',
    atexit_calls cs initial
    = Some (replicate (length cs `min` 32) 0 ++ replicate (length cs - 32) (-1), st)
    ∧ m_heap (registry st) = []
    ∧ m_list (registry st) = TailPtr
    ∧ run_all_exits (registry st)
      = Some ((λ c, Invoke (call_f c) (call_p c)) <$> reverse (take 32 cs), r').
Proof.
  intros Hfail.
  destruct (atexit_calls_tail (take 32 cs) initial [] initial_holds eq_refl eq_refl)
    as (st1 & Hcs1 & Hh & Htail & Hheap);
    [rewrite length_take; unfold BLOCK_SZ; simpl length; lia|].
  simpl in Hh. pose proof (run_all_exits_holds _ _ Hh) as Hrun.
  rewrite lifo_entry_of in Hrun.
  rewrite length_take in Hcs1.
  assert (Hrest : ∃ st2, atexit_calls (drop 32 cs) st1
                         = Some (replicate (length cs - 32) (-1), st2)
                         ∧ registry st2 = registry st1).
  { destruct (decide (length cs ≤ 32)%nat) as [Hle|Hgt].
    - rewrite drop_ge by exact Hle.
      replace (length cs - 32)%nat with 0%nat by lia.
      exists st1. split; reflexivity.
    - destruct (holds_tail _ _ Hh Htail) as [Hlog Hok].
      assert (Hfull : full (m_tail (registry st1)) = true).
      { apply full_spec. pose proof (block_entries_length _ Hok) as Hl.
        rewrite <- Hlog, length_fmap, length_take in Hl.
        destruct Hok as [_ Hsz]. unfold BLOCK_SZ in *. lia. }
      rewrite <- (length_drop cs 32).
      apply (atexit_calls_all_fail _ st1 (m_tail (registry st1)));
        [rewrite Htail; reflexivity | exact Hfull | apply Forall_drop; exact Hfail]. }
  destruct Hrest as (st2 & Hcs2 & Hsame).
  exists st2. eexists. rewrite Hsame.
  split; [|split; [exact Hheap|split; [exact Htail|exact Hrun]]].
  rewrite <- (take_drop 32 cs) at 1.
  rewrite (Nat.min_comm (length cs) 32).
  eapply atexit_calls_app; eassumption.
Qed.

Lemma exhaustion_any_length_witness :
  ∃ st r',
    atexit_calls (marker_calls AllocFail 0 35) initial
    = Some (replicate 32 0 ++ replicate 3 (-1), st)
    ∧ run_all_exits (registry st)
      = Some ((λ k, Invoke k k) <$> reverse (seqZ 1 32), r').
Proof.
  destruct (exhaustion_any_length (marker_calls AllocFail 0 35))
    as (st & r' & Hcs & _ & _ & Hrun).
  { vm_compute. repeat constructor. }
  exists st, r'. split; [exact Hcs | exact Hrun].
Defined.



(** ** Storage growth and bounds while fresh nodes have a zero counter *)

Section Growth.
Implicit Types (r : RegistrationList) (e : ExitFunctionStorage).

Lemma initial_packed : packed initial_list 0.
Proof.
  exists (m_tail initial_list). simpl. unfold BLOCK_SZ.
  repeat split; try reflexivity; lia.
Qed.

Lemma deref_store_block r (p : BlockPtr) (b b' : FnBlock) :
  deref r p = Some b → deref (store_block r p b') p = Some b'.
Proof.
  destruct p as [|a]; simpl; [reflexivity|].
  rewrite list_lookup_alter_eq.
  destruct (m_heap r !! a); simpl; [reflexivity | discriminate].
Qed.

(** One registration keeps the entries packed: it fills the head block, or
    opens one new node when the head block is full, or fails and changes
    nothing. *)
Lemma push_front_packed r e alloc (n : nat) (ok : bool) r' :
  packed r n → alloc_zeroed alloc →
  push_front e alloc r = Some (ok, r') →
  packed r' (if ok then S n else n).
Proof.
  intros (b & Hderef & Hsz & Hn & Hshape) Hz Hpush.
  unfold push_front in Hpush. rewrite Hderef in Hpush. simpl in Hpush.
  destruct (full b) eqn:Hfull; simpl in Hpush.
  - apply full_spec in Hfull. destruct alloc as [|raw].
    + injection Hpush as <- <-. exists b. auto.
    + destruct Hz as [Hlen Hzero].
      unfold FnBlock_push_front in Hpush.
      destruct (m_funcs raw !! Z.to_nat (m_sz raw)); simpl in Hpush; [|discriminate].
      injection Hpush as <- <-. eexists. simpl.
      split; [rewrite list_lookup_middle by reflexivity; reflexivity|].
      simpl. rewrite Hzero, length_app. simpl. unfold BLOCK_SZ in *.
      change ((0 + 1) mod 256) with 1.
      repeat split; lia.
  - assert (Hroom : m_sz b ≠ BLOCK_SZ) by (apply full_false_room; exact Hfull).
    unfold FnBlock_push_front in Hpush.
    destruct (m_funcs b !! Z.to_nat (m_sz b)); simpl in Hpush; [|discriminate].
    injection Hpush as <- <-.
    assert (Hwrap : (m_sz b + 1) mod 256 = m_sz b + 1)
      by (apply Z.mod_small; unfold BLOCK_SZ in *; lia).
    pose proof (deref_store_block r (m_list r) b
                  {| m_funcs := <[Z.to_nat (m_sz b) := e]> (m_funcs b);
                     m_sz := (m_sz b + 1) mod 256 |} Hderef) as Hderef'.
    destruct r as [tl h [|a]]; simpl in *; eexists;
      (split; [exact Hderef'|]); simpl; rewrite Hwrap; unfold BLOCK_SZ in *.
    + repeat split; try lia. exact Hshape.
    + rewrite length_alter. repeat split; lia.
Qed.

Lemma atexit_calls_packed (cs : list Call) :
  ∀ (st : Runtime) (n : nat) (ress : list Z) (st' : Runtime),
    packed (registry st) n →
    Forall (λ c, alloc_zeroed (call_alloc c)) cs →
    atexit_calls cs st = Some (ress, st') →
    packed (registry st') (n + length (accepted cs ress)).
Proof.
  induction cs as [|c cs IH]; intros st n ress st' Hp Hz Hcs.
  - injection Hcs as <- <-. simpl. rewrite Nat.add_0_r. exact Hp.
  - inversion Hz as [|? ? Hzc Hzcs]; subst. simpl in Hcs.
    destruct (__cxa_atexit _ _ _ _ st) as [[res sta]|] eqn:Hc; [|discriminate].
    simpl in Hcs.
    destruct (atexit_calls cs sta) as [[ress' stb]|] eqn:Hcs'; [|discriminate].
    injection Hcs as <- <-.
    destruct (atexit_inv _ _ _ _ _ _ _ Hc) as (ok & Hpush & -> & _).
    pose proof (push_front_packed _ _ _ n ok _ Hp Hzc Hpush) as Hp'.
    pose proof (IH _ _ _ _ Hp' Hzcs Hcs') as Hfinal.
    destruct ok; simpl.
    + replace (n + S (length (accepted cs ress')))%nat
        with (S n + length (accepted cs ress'))%nat by lia.
      exact Hfinal.
    + exact Hfinal.
Qed.

Lemma push_front_blocks_ok r e alloc (ok : bool) r' :
  all_blocks_ok r → alloc_zeroed alloc →
  push_front e alloc r = Some (ok, r') →
  all_blocks_ok r'.
Proof.
  intros [Htl Hheap] Hz Hpush. unfold push_front in Hpush.
  destruct (deref r (m_list r)) as [b|] eqn:Hderef; [|discriminate].
  simpl in Hpush.
  assert (Hb : block_ok b).
  { destruct (m_list r) as [|a]; simpl in Hderef.
    - injection Hderef as <-. exact Htl.
    - destruct (m_heap r !! a) as [node|] eqn:Hnode; [|discriminate].
      injection Hderef as <-.
      apply (Forall_lookup_1 _ _ _ _ Hheap Hnode). }
  destruct (full b) eqn:Hfull; simpl in Hpush.
  - destruct alloc as [|raw].
    + injection Hpush as <- <-. split; assumption.
    + destruct Hz as [Hlen Hzero].
      destruct (FnBlock_push_front_room e raw) as (b' & Hb' & Hok' & _);
        [split; [exact Hlen | rewrite Hzero; unfold BLOCK_SZ; lia]
        | rewrite Hzero; discriminate |].
      rewrite Hb' in Hpush. injection Hpush as <- <-.
      split; simpl; [exact Htl|]. apply Forall_app. split; [exact Hheap|].
      apply Forall_singleton. exact Hok'.
  - destruct (FnBlock_push_front_room e b Hb) as (b' & Hb' & Hok' & _);
      [apply full_false_room; exact Hfull|].
    rewrite Hb' in Hpush. injection Hpush as <- <-.
    destruct (m_list r) as [|a]; simpl.
    + split; [exact Hok' | exact Hheap].
    + split; [exact Htl|]. apply Forall_alter; [exact Hheap|].
      intros node _ _. exact Hok'.
Qed.

Lemma atexit_calls_blocks_ok (cs : list Call) :
  ∀ (st : Runtime) (ress : list Z) (st' : Runtime),
    all_blocks_ok (registry st) →
    Forall (λ c, alloc_zeroed (call_alloc c)) cs →
    atexit_calls cs st = Some (ress, st') →
    all_blocks_ok (registry st').
Proof.
  induction cs as [|c cs IH]; intros st ress st' Hok Hz Hcs.
  - injection Hcs as <- <-. exact Hok.
  - inversion Hz as [|? ? Hzc Hzcs]; subst. simpl in Hcs.
    destruct (__cxa_atexit _ _ _ _ st) as [[res sta]|] eqn:Hc; [|discriminate].
    simpl in Hcs.
    destruct (atexit_calls cs sta) as [[ress' stb]|] eqn:Hcs'; [|discriminate].
    injection Hcs as <- <-.
    destruct (atexit_inv _ _ _ _ _ _ _ Hc) as (ok & Hpush & _ & _).
    eapply IH; [|exact Hzcs|exact Hcs'].
    eapply push_front_blocks_ok; eassumption.
Qed.

End Growth.

(** X3. While every fresh node comes with a zero counter, storage grows by one
    node per 32 accepted entries beyond the first 32: after any sequence of
    calls of which [n] returned 0, exactly [(n - 1) / 32] nodes exist (none
    for [n = 0]), and [m_list] is the tail block up to 32 entries and the
    newest node afterwards. *)
Theorem one_node_per_full_block (cs : list Call) :
  Forall (λ c, alloc_zeroed (call_alloc c)) cs →
  ∃ ress st,
    atexit_calls cs initial = Some (ress, st)
    ∧ length (m_heap (registry st)) = ((length (accepted cs ress) - 1) / 32)%nat
    ∧ m_list (registry st)
      = (if decide (length (accepted cs ress) ≤ 32)%nat then TailPtr
         else NodePtr (length (m_heap (registry st)) - 1)).
Proof.
  intros Hz.
  destruct (atexit_calls_holds cs initial [] initial_holds Hz)
    as (ress & st & Hcs & _ & _).
  pose proof (atexit_calls_packed cs initial 0 ress st initial_packed Hz Hcs)
    as (b & _ & Hsz & Hn & Hshape).
  exists ress, st. split; [exact Hcs|].
  simpl in Hn. unfold BLOCK_SZ in *.
  destruct (m_list (registry st)) as [|a].
  - rewrite Hshape in Hn |- *. cbn [length] in Hn |- *.
    rewrite decide_True by lia.
    split; [|reflexivity]. symmetry. apply Nat.div_small. lia.
  - destruct Hshape as [Hlen Hone].
    rewrite decide_False by lia.
    split; [|f_equal; lia].
    apply (Nat.div_unique _ 32 _ (Z.to_nat (m_sz b) - 1)); lia.
Qed.

Lemma one_node_per_full_block_witness :
  ∃ ress st,
    atexit_calls (marker_calls (AllocOk (stale_storage 0)) 0 70) initial
    = Some (ress, st)
    ∧ ress = replicate 70 0
    ∧ length (m_heap (registry st)) = 2%nat.
Proof.
  destruct (one_node_per_full_block (marker_calls (AllocOk (stale_storage 0)) 0 70))
    as (ress & st & Hcs & Hlen & _).
  { vm_compute. repeat constructor. }
  exists ress, st. split; [exact Hcs|].
  assert (Hress : ress = replicate 70 0).
  { vm_compute in Hcs. injection Hcs as <- _. reflexivity. }
  split; [exact Hress|]. rewrite Hlen, Hress. reflexivity.
Defined.

(** X2. While every fresh node comes with a zero counter, every call of any
    sequence is defined (each store is inside its array), every block of
    the registry keeps its counter at most [BLOCK_SZ], and the traversal is
    defined (each slot it reads is inside its array). *)
Theorem every_access_in_bounds_when_zeroed (cs : list Call) :
  Forall (λ c, alloc_zeroed (call_alloc c)) cs →
  ∃ ress st,
    atexit_calls cs initial = Some (ress, st)
    ∧ all_blocks_ok (registry st)
    ∧ is_Some (run_all_exits (registry st)).
Proof.
  intros Hz.
  destruct (atexit_calls_holds cs initial [] initial_holds Hz)
    as (ress & st & Hcs & _ & Hh).
  exists ress, st. split; [exact Hcs|]. split.
  - apply (atexit_calls_blocks_ok cs initial ress st); [|exact Hz|exact Hcs].
    split; [|constructor].
    split; [reflexivity | simpl; unfold BLOCK_SZ; lia].
  - rewrite (run_all_exits_holds _ _ Hh). eauto.
Qed.

Lemma every_access_in_bounds_when_zeroed_witness :
  ∃ ress st,
    atexit_calls (marker_calls (AllocOk (stale_storage 0)) 0 40) initial
    = Some (ress, st)
    ∧ all_blocks_ok (registry st).
Proof.
  destruct (every_access_in_bounds_when_zeroed
              (marker_calls (AllocOk (stale_storage 0)) 0 40))
    as (ress & st & Hcs & Hok & _).
  { vm_compute. repeat constructor. }
  exists ress, st. split; [exact Hcs | exact Hok].
Defined.

Lemma lifo_when_fresh_counters_zero_witness :
  ∃ ress st r',
    atexit_calls (marker_calls (AllocOk (stale_storage 0)) 0 40) initial
    = Some (ress, st)
    ∧ ress = replicate 40 0
    ∧ run_all_exits (registry st)
      = Some ((λ k, Invoke k k) <$> reverse (seqZ 1 40), r').
Proof.
  destruct (lifo_when_fresh_counters_zero
              (marker_calls (AllocOk (stale_storage 0)) 0 40))
    as (ress & st & r' & Hcs & _ & Hrun & _).
  { vm_compute. repeat constructor. }
  assert (Hress : ress = replicate 40 0).
  { pose proof Hcs as Hcs'. vm_compute in Hcs'. injection Hcs' as <- _. reflexivity. }
  exists ress, st, r'. split; [exact Hcs|]. split; [exact Hress|].
  rewrite Hrun, Hress. reflexivity.
Defined.
